(** * Simple-Blockchain-App: a shallow embedding of [main.cpp]

    The program keeps a fixed array of at most [MAX_BLOCKS] blocks.  Each
    block stores a text, the hash of its predecessor and its own hash, a
    positional checksum rendered as eight hexadecimal characters.  The
    embedding follows the source function by function: [simpleHash],
    [createBlock] and [main], the latter over an explicit model of the
    two console streams. *)

From Stdlib Require Import ZArith Ascii String DecimalString Lia.
From stdpp Require Import base option list list_numbers strings.
From Equations.Prop Require Import Equations Logic.

Local Open Scope Z_scope.

(** ** C++ scalar types

    [int] is a 32-bit two's complement integer.  Every arithmetic result is
    brought back into range by [wrap32], which is what the compiled program
    does on overflow. *)

Definition INT_MIN : Z := - 2 ^ 31.
Definition INT_MAX : Z := 2 ^ 31 - 1.

Definition wrap32 (z : Z) : Z := (z + 2 ^ 31) mod 2 ^ 32 - 2 ^ 31.

Definition int_add (a b : Z) : Z := wrap32 (a + b).
Definition int_sub (a b : Z) : Z := wrap32 (a - b).
Definition int_mul (a b : Z) : Z := wrap32 (a * b).

(** [a >> n] on a signed [int] is the arithmetic shift, [a & b] the bitwise
    conjunction of the two's complement representations. *)
Definition int_shr (a n : Z) : Z := Z.shiftr a n.
Definition int_and (a b : Z) : Z := Z.land a b.

Definition NUL : ascii := "000"%char.
Definition LF : ascii := "010"%char.

Section Program.

(** Whether plain [char] is a signed type is left to the platform by the
    language; it only matters for bytes above 127. *)
Variable char_is_signed : bool.

(** [(int)c] for a [char]. *)
Definition int_of_char (c : ascii) : Z :=
  let n := Z.of_N (N_of_ascii c) in
  if (128 <=? n) && char_is_signed then n - 256 else n.

(** Storing an [int] into a [char] keeps the low eight bits. *)
Definition char_of_int (z : Z) : ascii := ascii_of_N (Z.to_N (z mod 256)).

(** [string(const char* )]: the characters before the first NUL. *)
Fixpoint string_of_cstr (a : list ascii) : string :=
  match a with
  | [] => EmptyString
  | c :: rest => if Ascii.eqb c NUL then EmptyString else String c (string_of_cstr rest)
  end.

(** [cout << n] for an [int]. *)
Definition string_of_int (n : Z) : string := NilZero.string_of_int (Z.to_int n).

(** ** The program *)

Definition MAX_BLOCKS : Z := 10.

Record Block := mkBlock {
  data : string;
  prevHash : string;
  hash : string
}.

(** Step 1 of [simpleHash]: the loop over the characters of [input].  The
    first argument is the part of [input] from index [i] on, [h] is the
    local variable [hash].  The counter [i] is an [int] as well, so the
    function follows the source on inputs of fewer than [2 ^ 31]
    characters. *)
Fixpoint hash_loop (input : string) (i h : Z) : Z :=
  match input with
  | EmptyString => h
  | String c rest =>
      hash_loop rest (int_add i 1)
        (int_add h (int_mul (int_of_char c) (int_add i 1)))
  end.

(** The value of the local variable [hash] after step 1. *)
Definition hash_value (input : string) : Z := hash_loop input 0 0.

(** The body of the second loop of [simpleHash]: the character stored in
    [hashArray[i]]. *)
Definition hex_at (h i : Z) : ascii :=
  let value := int_and (int_shr h (int_mul i 4)) 15 in
  char_of_int (if value <? 10 then int_add 48 value
               else int_add 65 (int_sub value 10)).

(** [hashArray] after the second loop and the store of the terminator. *)
Definition hashArray (h : Z) : list ascii :=
  (hex_at h <$> seqZ 0 8) ++ [NUL].

Definition simpleHash (input : string) : string :=
  string_of_cstr (hashArray (hash_value input)).

Definition createBlock (data prevHash : string) : Block :=
  {| data := data;
     prevHash := prevHash;
     hash := simpleHash (data +:+ prevHash) |}.

(** ** The console streams

    [cin] is the text still to be read together with the two state bits the
    program can run into; [cout] is the sequence of texts written, one entry
    per output statement. *)

Record istream := mkIstream {
  pending : string;
  eofbit : bool;
  failbit : bool
}.

Definition good (s : istream) : bool := negb (eofbit s) && negb (failbit s).

Definition set_failbit (s : istream) : istream :=
  {| pending := pending s; eofbit := eofbit s; failbit := true |}.

(** The characters of [s] up to the first line feed, and what follows that
    line feed; [None] when [s] holds no line feed. *)
Fixpoint split_line (s : string) : string * option string :=
  match s with
  | EmptyString => (EmptyString, None)
  | String c rest =>
      if Ascii.eqb c LF then (EmptyString, Some rest)
      else let '(line, tl) := split_line rest in (String c line, tl)
  end.

(** [getline(cin, str)]: on a stream that is not good the call fails and
    leaves [str] alone.  Otherwise [str] is cleared and receives the
    characters up to the next line feed, which is consumed and dropped.
    Running into the end of the input sets [eofbit], and [failbit] too when
    nothing at all was extracted. *)
Definition getline (s : istream) (str : string) : string * istream :=
  if good s then
    match split_line (pending s) with
    | (line, Some rest) =>
        (line, {| pending := rest; eofbit := false; failbit := false |})
    | (line, None) =>
        (line, {| pending := EmptyString; eofbit := true;
                  failbit := if line is EmptyString then true else false |})
    end
  else (str, set_failbit s).

(** [isspace] in the default locale. *)
Definition isspace (c : ascii) : bool :=
  let n := N_of_ascii c in
  ((n =? 32) || ((9 <=? n) && (n <=? 13)))%N.

Fixpoint skipws (s : string) : string :=
  match s with
  | EmptyString => EmptyString
  | String c rest => if isspace c then skipws rest else s
  end.

(** [cin >> c] for a [char]: skips white space and reads one character.
    When the stream is not good, or ends before a character is found, the
    extraction fails and [c] keeps its value. *)
Definition extract_char (s : istream) (c : ascii) : ascii * istream :=
  if good s then
    match skipws (pending s) with
    | EmptyString =>
        (c, {| pending := EmptyString; eofbit := true; failbit := true |})
    | String x rest =>
        (x, {| pending := rest; eofbit := false; failbit := false |})
    end
  else (c, set_failbit s).

(** [cin.ignore()]: drops one character. *)
Definition ignore (s : istream) : istream :=
  if good s then
    match pending s with
    | EmptyString =>
        {| pending := EmptyString; eofbit := true; failbit := false |}
    | String _ rest =>
        {| pending := rest; eofbit := false; failbit := false |}
    end
  else set_failbit s.

Definition ostream := list string.

(** One output statement writing the text [t]. *)
Definition put (out : ostream) (t : string) : ostream := out ++ [t].

(** ** [main] *)

(** The local variables of [main] and the two streams. *)
Record state := mkState {
  blockchain : list Block;
  blockCount : Z;
  choice : ascii;
  cin : istream;
  cout : ostream
}.

(** Reading and writing an element of a C++ array.  An index outside the
    array has no defined behaviour in the source; here it yields [None]. *)
Definition array_get {A} (a : list A) (i : Z) : option A :=
  if (0 <=? i) then a !! Z.to_nat i else None.

Definition array_set {A} (a : list A) (i : Z) (x : A) : option (list A) :=
  if (0 <=? i) && (i <? Z.of_nat (length a))
  then Some (<[Z.to_nat i := x]> a) else None.

(** A default-initialised [Block]: three empty strings. *)
Definition empty_Block : Block :=
  {| data := EmptyString; prevHash := EmptyString; hash := EmptyString |}.

Definition data_prompt (n : Z) : string :=
  String LF "Enter data for block " +:+ string_of_int n +:+ ": ".

Definition continue_prompt : string := "Add another block? (y/n): ".

(** Lines 128 to 140: the declarations, the genesis block and the initial
    [choice]. *)
Definition main_init (stdin : istream) : option state :=
  let blockchain := replicate (Z.to_nat MAX_BLOCKS) empty_Block in
  let blockCount := 0 in
  blockchain ← array_set blockchain 0 (createBlock "Genesis Block" "00000000");
  let blockCount := int_add blockCount 1 in
  let choice := "y"%char in
  Some {| blockchain := blockchain; blockCount := blockCount;
          choice := choice; cin := stdin; cout := [] |}.

(** The guard of the [while] loop. *)
Definition loop_cond (st : state) : bool :=
  Ascii.eqb (choice st) "y" && (blockCount st <? MAX_BLOCKS).

(** Lines 144 to 151: prompt, read a line, create the block, store it. *)
Definition body_append (st : state) : option state :=
  let data := EmptyString in
  let out := put (cout st) (data_prompt (blockCount st)) in
  let '(data, cin) := getline (cin st) data in
  prev ← array_get (blockchain st) (int_sub (blockCount st) 1);
  blockchain ← array_set (blockchain st) (blockCount st)
                 (createBlock data (hash prev));
  Some {| blockchain := blockchain;
          blockCount := int_add (blockCount st) 1;
          choice := choice st; cin := cin; cout := out |}.

(** Lines 153 to 156: ask whether to go on and read the answer. *)
Definition body_continue (st : state) : state :=
  let out := put (cout st) continue_prompt in
  let '(choice, cin) := extract_char (cin st) (choice st) in
  let cin := ignore cin in
  {| blockchain := blockchain st; blockCount := blockCount st;
     choice := choice; cin := cin; cout := out |}.

Definition loop_body (st : state) : option state :=
  body_continue <$> body_append st.

(** The [while] loop of lines 141 to 157.  It is a total function: an
    iteration that runs raises [blockCount], which the guard bounds by
    [MAX_BLOCKS]. *)
Definition loop_measure (st : state) : nat :=
  Z.to_nat (MAX_BLOCKS - blockCount st).

Equations? main_loop (st : state) : option state by wf (loop_measure st) lt :=
  main_loop st with inspect (loop_cond st) := {
    | exist _ true Hcond with inspect (loop_body st) := {
        | exist _ (Some st') Hbody => main_loop st'
        | exist _ None _ => None };
    | exist _ false _ => Some st }.
Proof.
  apply andb_prop in Hcond as [_ Hlt%Z.ltb_lt].
  unfold loop_body, body_append in Hbody.
  destruct (getline _ _) as [line rest].
  destruct (array_get _ _) as [prev|]; [simpl in Hbody|done].
  unfold array_set in Hbody.
  destruct (Z.leb_spec 0 (blockCount st)) as [Hge|]; [|done].
  destruct (_ <? Z.of_nat _); [simpl in Hbody|done].
  injection Hbody as <-.
  unfold body_continue. simpl. destruct (extract_char _ _). simpl.
  unfold loop_measure, int_add, wrap32, MAX_BLOCKS in *. simpl.
  rewrite Z.mod_small by lia. lia.
Qed.

(** The state in which the loop is left: the chain as built. *)
Definition main_interactive (stdin : istream) : option state :=
  main_init stdin ≫= main_loop.

(** One round of the display loop, lines 163 to 166. *)
Definition display_block (arr : list Block) (out : ostream) (i : Z)
  : option ostream :=
  b ← array_get arr i;
  let out := put out ("Block " +:+ string_of_int i +:+ String ":" (String LF "")) in
  let out := put out ("  Data      : " +:+ data b +:+ String LF "") in
  let out := put out ("  Prev Hash : " +:+ prevHash b +:+ String LF "") in
  Some (put out ("  Hash      : " +:+ hash b +:+ String LF (String LF ""))).

(** Lines 159 to 169.  The result is the text written and the exit code. *)
Definition main_display (st : state) : option (ostream * Z) :=
  let out := put (cout st) (String LF "=== Blockchain ===" +:+ String LF "") in
  out ← foldl (λ acc i, acc ≫= λ out, display_block (blockchain st) out i)
        (Some out) (seqZ 0 (blockCount st));
  Some (out, 0).

Definition main (stdin : istream) : option (ostream * Z) :=
  main_interactive stdin ≫= main_display.

(** ** Notions used in the statements *)

(** The blocks of the chain: the first [blockCount] cells of the array. *)
Definition chain (st : state) : list Block :=
  take (Z.to_nat (blockCount st)) (blockchain st).

Definition genesis : Block := createBlock "Genesis Block" "00000000".

(** Every block but the first carries the hash of the block before it. *)
Definition linked (l : list Block) : Prop :=
  ∀ i : nat, (1 ≤ i < length l)%nat →
    ∃ b p, l !! i = Some b ∧ l !! (i - 1)%nat = Some p ∧ prevHash b = hash p.

(** The states in which the guard of the loop is evaluated when [main]
    runs on the input [stdin]. *)
Inductive at_loop_head (stdin : istream) : state → Prop :=
  | at_loop_entry st :
      main_init stdin = Some st → at_loop_head stdin st
  | at_loop_again st st' :
      at_loop_head stdin st → loop_cond st = true →
      loop_body st = Some st' → at_loop_head stdin st'.

(** What the loop has written once the chain holds [n] blocks. *)
Definition prompts (n : Z) : ostream :=
  flat_map (λ k, [data_prompt k; continue_prompt]) (seqZ 1 (n - 1)).

Record loop_invariant (st : state) : Prop := mkInv {
  inv_capacity : length (blockchain st) = Z.to_nat MAX_BLOCKS;
  inv_count : 1 <= blockCount st <= MAX_BLOCKS;
  inv_genesis : chain st !! 0%nat = Some genesis;
  inv_linked : linked (chain st);
  inv_cout : cout st = prompts (blockCount st)
}.

(** The value of [choice] after the first [cin >> choice] of a run. *)
Definition first_answer (stdin : istream) : ascii :=
  (extract_char (getline stdin EmptyString).2 "y").1.

(** [n] rounds of the loop, guard included. *)
Fixpoint rounds (n : nat) (st : state) : option state :=
  match n with
  | O => Some st
  | S n => if loop_cond st then loop_body st ≫= rounds n else None
  end.

(** ** The hash as the documentation words it *)

(** The code of a character as the documentation means it: the value of
    its byte, from 0 to 255. *)
Definition byte_value (c : ascii) : Z := Z.of_N (N_of_ascii c).

(** The sum of code times position, positions counted from one, in
    unbounded arithmetic. *)
Definition spec_weighted_sum (input : string) : Z :=
  foldr Z.add 0
    (imap (λ k c, byte_value c * (Z.of_nat k + 1)) (list_ascii_of_string input)).

Definition spec_accumulator (input : string) : Z :=
  wrap32 (spec_weighted_sum input).

Definition spec_hex_digit (v : Z) : ascii :=
  nth (Z.to_nat v)
    ["0"; "1"; "2"; "3"; "4"; "5"; "6"; "7";
     "8"; "9"; "A"; "B"; "C"; "D"; "E"; "F"]%char NUL.

Definition spec_nibble (acc i : Z) : Z := Z.land (Z.shiftr acc (i * 4)) 15.

Definition spec_digest (input : string) : string :=
  string_of_list_ascii
    ((λ i, spec_hex_digit (spec_nibble (spec_accumulator input) i)) <$> seqZ 0 8).

(** The characters of [input] all lie in the 7-bit range. *)
Fixpoint is_ascii7 (input : string) : bool :=
  match input with
  | EmptyString => true
  | String c rest => (N_of_ascii c <? 128)%N && is_ascii7 rest
  end.

(** ** The hash with the character codes of the platform *)

(** The number a plain [char] holding the byte [c] stands for: the value of
    the byte, and for a byte above 127 that value less 256 where plain
    [char] is signed. *)
Definition platform_code (c : ascii) : Z :=
  if char_is_signed
  then (if byte_value c <? 128 then byte_value c else byte_value c - 256)
  else byte_value c.

Definition platform_weighted_sum (input : string) : Z :=
  foldr Z.add 0
    (imap (λ k c, platform_code c * (Z.of_nat k + 1))
       (list_ascii_of_string input)).

Definition platform_accumulator (input : string) : Z :=
  wrap32 (platform_weighted_sum input).

Definition platform_digest (input : string) : string :=
  string_of_list_ascii
    ((λ i, spec_hex_digit (spec_nibble (platform_accumulator input) i))
       <$> seqZ 0 8).

Definition is_hex_digit (c : ascii) : bool :=
  let n := N_of_ascii c in
  (((48 <=? n) && (n <=? 57)) || ((65 <=? n) && (n <=? 70)))%N.

(** The same sum with the position of the first character as a parameter. *)
Fixpoint weighted_sum_from (pos : Z) (input : string) : Z :=
  match input with
  | EmptyString => 0
  | String c rest => int_of_char c * pos + weighted_sum_from (pos + 1) rest
  end.

(** Standard input holding the text [t], nothing read yet. *)
Definition stdin_of (t : string) : istream :=
  {| pending := t; eofbit := false; failbit := false |}.

Definition nl : string := String LF "".

(** ** Notions used in the further properties *)

(** Reading a digest back: the value of a hexadecimal character, the number
    a string of them denotes when its first character is the least
    significant, and that number as an [int]. *)
Definition hex_value (c : ascii) : Z :=
  let n := Z.of_N (N_of_ascii c) in
  if n <? 65 then n - 48 else n - 55.

Fixpoint digits_value (d : string) : Z :=
  match d with
  | EmptyString => 0
  | String c rest => hex_value c + 16 * digits_value rest
  end.

Definition digest_value (d : string) : Z := wrap32 (digits_value d).

(** The plain sum of the character codes. *)
Fixpoint char_sum (input : string) : Z :=
  match input with
  | EmptyString => 0
  | String c rest => int_of_char c + char_sum rest
  end.

(** The four texts the report shows for the block at position [i]. *)
Definition report_block (i : nat) (b : Block) : list string :=
  [ "Block " +:+ string_of_int (Z.of_nat i) +:+ String ":" nl;
    "  Data      : " +:+ data b +:+ nl;
    "  Prev Hash : " +:+ prevHash b +:+ nl;
    "  Hash      : " +:+ hash b +:+ nl +:+ nl ].

(** The report for a list of blocks: the header and the blocks in order. *)
Definition report (l : list Block) : ostream :=
  (String LF "=== Blockchain ===" +:+ nl) :: mjoin (imap report_block l).

(** A text without a line feed, as a user can type it on one line. *)
Fixpoint one_line (t : string) : bool :=
  match t with
  | EmptyString => true
  | String c rest => negb (Ascii.eqb c LF) && one_line rest
  end.

(** What a user types who enters the given lines, answers y after each
    but the last and n after the last. *)
Fixpoint session (lines : list string) : string :=
  match lines with
  | [] => EmptyString
  | t :: rest =>
      t +:+ nl +:+
      match rest with
      | [] => "n" +:+ nl
      | _ :: _ => "y" +:+ nl +:+ session rest
      end
  end.

(** * Properties *)

(** ** 32-bit arithmetic *)

Lemma wrap32_id z : INT_MIN <= z <= INT_MAX → wrap32 z = z.
Proof.
  unfold INT_MIN, INT_MAX, wrap32. intros Hz.
  rewrite Z.mod_small by lia. lia.
Qed.

Lemma wrap32_range z : INT_MIN <= wrap32 z <= INT_MAX.
Proof.
  unfold INT_MIN, INT_MAX, wrap32.
  pose proof (Z.mod_pos_bound (z + 2 ^ 31) (2 ^ 32)). lia.
Qed.

Lemma wrap32_mod z : wrap32 z mod 2 ^ 32 = z mod 2 ^ 32.
Proof.
  unfold wrap32. rewrite Zminus_mod_idemp_l. f_equal. lia.
Qed.

Lemma wrap32_congr a b : a mod 2 ^ 32 = b mod 2 ^ 32 → wrap32 a = wrap32 b.
Proof.
  unfold wrap32. intros Hab.
  by rewrite <- (Zplus_mod_idemp_l a), Hab, Zplus_mod_idemp_l.
Qed.

Lemma wrap32_small z : 0 <= z <= 1000 → wrap32 z = z.
Proof. intros Hz. apply wrap32_id. unfold INT_MIN, INT_MAX. lia. Qed.

(** ** The accumulator *)

Lemma hash_loop_mod input : ∀ i h pos acc,
  (i + 1) mod 2 ^ 32 = pos mod 2 ^ 32 →
  h mod 2 ^ 32 = acc mod 2 ^ 32 →
  hash_loop input i h mod 2 ^ 32
  = (acc + weighted_sum_from pos input) mod 2 ^ 32.
Proof.
  induction input as [|c rest IH]; intros i h pos acc Hi Hh; simpl.
  - by rewrite Z.add_0_r.
  - rewrite Z.add_assoc. apply IH; unfold int_add, int_mul.
    + by rewrite <- Zplus_mod_idemp_l, wrap32_mod, Zplus_mod_idemp_l,
        <- Zplus_mod_idemp_l, Hi, Zplus_mod_idemp_l.
    + rewrite wrap32_mod, Zplus_mod, wrap32_mod, Zmult_mod, wrap32_mod.
      rewrite Hi, Hh, <- Zmult_mod, <- Zplus_mod. done.
Qed.

Lemma hash_loop_range input : ∀ i h,
  INT_MIN <= h <= INT_MAX → INT_MIN <= hash_loop input i h <= INT_MAX.
Proof.
  induction input as [|c rest IH]; intros i h Hh; simpl; [done|].
  apply IH, wrap32_range.
Qed.

Lemma weighted_sum_from_imap input : ∀ pos,
  weighted_sum_from pos input
  = foldr Z.add 0
      (imap (λ k c, int_of_char c * (Z.of_nat k + pos))
         (list_ascii_of_string input)).
Proof.
  induction input as [|c rest IH]; intros pos; simpl; [done|].
  rewrite IH. f_equal.
  f_equal. apply imap_ext. intros k x _. simpl. f_equal. lia.
Qed.

Lemma int_of_char_platform_code c : int_of_char c = platform_code c.
Proof.
  unfold int_of_char, platform_code, byte_value.
  destruct char_is_signed, (Z.leb_spec 128 (Z.of_N (N_of_ascii c))),
    (Z.ltb_spec (Z.of_N (N_of_ascii c)) 128); simpl; lia.
Qed.

Lemma weighted_sum_from_platform input :
  weighted_sum_from 1 input = platform_weighted_sum input.
Proof.
  rewrite weighted_sum_from_imap. unfold platform_weighted_sum.
  f_equal. apply imap_ext. intros k c _. simpl.
  by rewrite int_of_char_platform_code.
Qed.

Lemma is_ascii7_lookup input : ∀ k c,
  is_ascii7 input = true → list_ascii_of_string input !! k = Some c →
  byte_value c < 128.
Proof.
  induction input as [|x rest IH]; intros k c Hascii Hc; [done|].
  simpl in Hascii. apply andb_prop in Hascii as [Hx%N.ltb_lt Hrest].
  destruct k as [|k]; simpl in Hc.
  - injection Hc as <-. unfold byte_value. lia.
  - by eapply IH.
Qed.

(** Where plain [char] is unsigned, and on 7-bit input everywhere, the
    platform reads every character as its byte value. *)
Lemma platform_weighted_sum_bytes input :
  char_is_signed = false ∨ is_ascii7 input = true →
  platform_weighted_sum input = spec_weighted_sum input.
Proof.
  intros Hcase. unfold platform_weighted_sum, spec_weighted_sum.
  f_equal. apply imap_ext. intros k c Hc. simpl. f_equal.
  unfold platform_code. destruct Hcase as [->|Hascii]; [done|].
  pose proof (is_ascii7_lookup input k c Hascii Hc) as Hlow.
  destruct char_is_signed; [|done].
  by destruct (Z.ltb_spec (byte_value c) 128); [|lia].
Qed.

Lemma hash_value_accumulator input :
  hash_value input = platform_accumulator input.
Proof.
  unfold hash_value, platform_accumulator.
  rewrite <- weighted_sum_from_platform.
  rewrite <- (wrap32_id (hash_loop input 0 0))
    by (apply hash_loop_range; unfold INT_MIN, INT_MAX; lia).
  apply wrap32_congr.
  by rewrite (hash_loop_mod input 0 0 1 0).
Qed.

(** ** The eight characters *)

Lemma nibble_cases (P : Z → Prop) v :
  0 <= v < 16 →
  P 0 → P 1 → P 2 → P 3 → P 4 → P 5 → P 6 → P 7 →
  P 8 → P 9 → P 10 → P 11 → P 12 → P 13 → P 14 → P 15 → P v.
Proof.
  intros Hv. intros.
  assert (Hn : ∃ n : nat, (n < 16)%nat ∧ v = Z.of_nat n).
  { exists (Z.to_nat v). lia. }
  destruct Hn as (n & Hn & ->).
  do 16 (destruct n as [|n]; [assumption|]). lia.
Qed.

Lemma spec_nibble_range acc i : 0 <= spec_nibble acc i < 16.
Proof.
  unfold spec_nibble. change 15 with (Z.ones 4).
  rewrite Z.land_ones by lia. apply Z.mod_pos_bound. lia.
Qed.

Lemma hex_at_spec h i :
  0 <= i < 8 → hex_at h i = spec_hex_digit (spec_nibble h i).
Proof.
  intros Hi. unfold hex_at, int_and, int_shr, int_mul.
  rewrite wrap32_small by lia. fold (spec_nibble h i).
  apply (nibble_cases (λ v, char_of_int
           (if v <? 10 then int_add 48 v else int_add 65 (int_sub v 10))
           = spec_hex_digit v)); [apply spec_nibble_range|..]; reflexivity.
Qed.

Lemma spec_hex_digit_is_hex v :
  0 <= v < 16 → is_hex_digit (spec_hex_digit v) = true.
Proof.
  intros Hv.
  apply (nibble_cases (λ v, is_hex_digit (spec_hex_digit v) = true));
    [done|..]; reflexivity.
Qed.

Lemma is_hex_digit_not_NUL c : is_hex_digit c = true → Ascii.eqb c NUL = false.
Proof.
  intros Hc. apply Ascii.eqb_neq. intros ->. discriminate Hc.
Qed.

Lemma string_of_cstr_terminated l :
  Forall (λ c, is_hex_digit c = true) l →
  string_of_cstr (l ++ [NUL]) = string_of_list_ascii l.
Proof.
  induction 1 as [|c l Hc _ IH]; simpl; [done|].
  by rewrite (is_hex_digit_not_NUL c Hc), IH.
Qed.

Lemma hashArray_spec h :
  hashArray h = ((λ i, spec_hex_digit (spec_nibble h i)) <$> seqZ 0 8) ++ [NUL].
Proof.
  unfold hashArray. f_equal. apply Forall_fmap_ext_1.
  apply Forall_forall. intros i Hi.
  apply hex_at_spec. apply elem_of_seqZ in Hi. lia.
Qed.

Lemma spec_digits_hex h :
  Forall (λ c, is_hex_digit c = true)
    ((λ i, spec_hex_digit (spec_nibble h i)) <$> seqZ 0 8).
Proof.
  apply Forall_fmap, Forall_forall. intros i _. simpl.
  apply spec_hex_digit_is_hex, spec_nibble_range.
Qed.

Lemma simpleHash_digest input : simpleHash input = platform_digest input.
Proof.
  unfold simpleHash, platform_digest.
  rewrite hashArray_spec, string_of_cstr_terminated by apply spec_digits_hex.
  by rewrite hash_value_accumulator.
Qed.

Lemma length_string_of_list_ascii l :
  String.length (string_of_list_ascii l) = length l.
Proof. induction l; simpl; congruence. Qed.

(** ** The array and the chain *)

Lemma array_get_lookup {A} (a : list A) i :
  0 <= i → array_get a i = a !! Z.to_nat i.
Proof. unfold array_get. intros Hi. by destruct (Z.leb_spec 0 i); [|lia]. Qed.

Lemma array_set_insert {A} (a : list A) i x :
  0 <= i < Z.of_nat (length a) → array_set a i x = Some (<[Z.to_nat i := x]> a).
Proof.
  unfold array_set. intros Hi.
  destruct (Z.leb_spec 0 i), (Z.ltb_spec i (Z.of_nat (length a))); done || lia.
Qed.

Lemma take_S_insert {A} (l : list A) n x :
  (n < length l)%nat → take (S n) (<[n := x]> l) = take n l ++ [x].
Proof.
  intros Hn.
  rewrite (take_S_r _ _ x) by by apply list_lookup_insert_eq.
  by rewrite take_insert_ge.
Qed.

Lemma linked_snoc l p b :
  linked l → last l = Some p → prevHash b = hash p → linked (l ++ [b]).
Proof.
  intros Hl Hp Hb i Hi. rewrite length_app in Hi. simpl in Hi.
  rewrite last_lookup in Hp.
  destruct (decide (i = length l)) as [->|Hne].
  - exists b, p. split_and!; [|rewrite lookup_app_l by lia|done].
    + by rewrite list_lookup_middle.
    + by replace (length l - 1)%nat with (pred (length l)) by lia.
  - destruct (Hl i) as (b' & p' & Hb' & Hp' & Heq); [lia|].
    exists b', p'. by rewrite !lookup_app_l by lia.
Qed.

Lemma linked_singleton b : linked [b].
Proof. intros i Hi. simpl in Hi. lia. Qed.

Lemma prompts_succ n :
  1 <= n → prompts (n + 1) = prompts n ++ [data_prompt n; continue_prompt].
Proof.
  intros Hn. unfold prompts.
  replace (n + 1 - 1) with ((n - 1) + 1) by lia.
  rewrite seqZ_app by lia. rewrite flat_map_app.
  replace (1 + (n - 1)) with n by lia. done.
Qed.

(** ** The loop *)

Lemma loop_cond_true st :
  loop_cond st = true → choice st = "y"%char ∧ blockCount st < MAX_BLOCKS.
Proof.
  unfold loop_cond. intros [Hc Hn]%andb_prop.
  apply Ascii.eqb_eq in Hc. apply Z.ltb_lt in Hn. done.
Qed.

Lemma main_init_state stdin :
  main_init stdin
  = Some {| blockchain := genesis :: replicate 9 empty_Block;
            blockCount := 1; choice := "y"; cin := stdin; cout := [] |}.
Proof. reflexivity. Qed.

Lemma main_init_invariant stdin st :
  main_init stdin = Some st → loop_invariant st.
Proof.
  rewrite main_init_state. intros [= <-].
  split; unfold chain; simpl.
  - reflexivity.
  - unfold MAX_BLOCKS. lia.
  - reflexivity.
  - apply linked_singleton.
  - reflexivity.
Qed.

(** What one run of lines 144 to 151 does to a state that satisfies the
    invariant and has room left. *)
Lemma body_append_step st :
  loop_invariant st → blockCount st < MAX_BLOCKS →
  ∃ prev st1,
    last (chain st) = Some prev ∧
    body_append st = Some st1 ∧
    blockchain st1
    = <[Z.to_nat (blockCount st) :=
          createBlock (getline (cin st) EmptyString).1 (hash prev)]>
        (blockchain st) ∧
    blockCount st1 = blockCount st + 1 ∧
    choice st1 = choice st ∧
    cin st1 = (getline (cin st) EmptyString).2 ∧
    cout st1 = cout st ++ [data_prompt (blockCount st)] ∧
    chain st1
    = chain st ++ [createBlock (getline (cin st) EmptyString).1 (hash prev)].
Proof.
  intros [Hcap Hcount Hgen Hlink Hout] Hroom. unfold MAX_BLOCKS in *.
  assert (Hprev : is_Some (blockchain st !! Z.to_nat (blockCount st - 1))).
  { apply lookup_lt_is_Some. lia. }
  destruct Hprev as [prev Hprev]. exists prev.
  unfold body_append, int_sub, int_add.
  rewrite !wrap32_small by lia.
  destruct (getline (cin st) EmptyString) as [line rest]. simpl.
  rewrite array_get_lookup, Hprev by lia. simpl.
  rewrite array_set_insert by lia. simpl.
  eexists. split_and!; try reflexivity; simpl.
  - unfold chain. rewrite last_lookup, length_take_le by lia.
    rewrite lookup_take_lt by lia.
    by replace (pred (Z.to_nat (blockCount st)))
      with (Z.to_nat (blockCount st - 1)) by lia.
  - unfold chain. simpl.
    replace (Z.to_nat (blockCount st + 1))
      with (S (Z.to_nat (blockCount st))) by lia.
    apply take_S_insert. lia.
Qed.

Lemma body_continue_fields st :
  blockchain (body_continue st) = blockchain st ∧
  blockCount (body_continue st) = blockCount st ∧
  chain (body_continue st) = chain st ∧
  choice (body_continue st) = (extract_char (cin st) (choice st)).1 ∧
  cout (body_continue st) = cout st ++ [continue_prompt].
Proof.
  unfold body_continue, chain.
  by destruct (extract_char (cin st) (choice st)).
Qed.

Lemma body_append_invariant st st1 :
  loop_invariant st → blockCount st < MAX_BLOCKS →
  body_append st = Some st1 →
  length (blockchain st1) = Z.to_nat MAX_BLOCKS ∧
  1 <= blockCount st1 <= MAX_BLOCKS ∧
  chain st1 !! 0%nat = Some genesis ∧
  linked (chain st1).
Proof.
  intros Hinv Hroom Hst1.
  destruct (body_append_step st Hinv Hroom)
    as (prev & st1' & Hlast & Happ & Harr & Hcnt & _ & _ & _ & Hchain).
  assert (st1' = st1) as -> by congruence.
  destruct Hinv as [Hcap Hcount Hgen Hlink Hout].
  repeat apply conj.
  - by rewrite Harr, length_insert.
  - lia.
  - lia.
  - rewrite Hchain. by apply lookup_app_l_Some.
  - rewrite Hchain. by eapply linked_snoc.
Qed.

Lemma loop_body_invariant st :
  loop_invariant st → loop_cond st = true →
  ∃ st', loop_body st = Some st' ∧ loop_invariant st' ∧
         blockCount st' = blockCount st + 1 ∧
         chain st `prefix_of` chain st'.
Proof.
  intros Hinv [_ Hroom%Z.ltb_lt]%andb_prop.
  destruct (body_append_step st Hinv Hroom)
    as (prev & st1 & _ & Happ & _ & Hcnt & _ & _ & Hout & Hsnoc).
  destruct (body_append_invariant st st1 Hinv Hroom Happ)
    as (Hcap1 & Hcount1 & Hgen1 & Hlink1).
  destruct (body_continue_fields st1) as (Harr & Hcnt2 & Hchain & _ & Hout2).
  exists (body_continue st1). unfold loop_body. rewrite Happ. simpl.
  split_and!; [done| |lia|rewrite Hchain, Hsnoc; by eexists].
  split.
  - by rewrite Harr.
  - lia.
  - by rewrite Hchain.
  - by rewrite Hchain.
  - rewrite Hout2, Hout, Hcnt2, Hcnt, (inv_cout st Hinv).
    rewrite prompts_succ by apply (inv_count st Hinv).
    by rewrite <- app_assoc.
Qed.

Lemma main_loop_guard_eq st :
  main_loop st = if loop_cond st then loop_body st ≫= main_loop else Some st.
Proof.
  funelim (main_loop st);
    match goal with E : loop_cond _ = _ |- _ => rewrite E end;
    try match goal with E : loop_body _ = _ |- _ => rewrite E end;
    reflexivity.
Qed.

Lemma main_loop_finishes st :
  loop_invariant st →
  ∃ st', main_loop st = Some st' ∧ loop_invariant st' ∧
         loop_cond st' = false ∧ blockCount st <= blockCount st' ∧
         (loop_cond st = true → blockCount st < blockCount st') ∧
         (loop_cond st = false → st' = st) ∧
         chain st `prefix_of` chain st' ∧
         ∀ stdin, at_loop_head stdin st → at_loop_head stdin st'.
Proof.
  remember (loop_measure st) as n eqn:Hn. revert st Hn.
  induction n as [n IH] using lt_wf_ind. intros st Hn Hinv.
  rewrite main_loop_guard_eq.
  destruct (loop_cond st) eqn:Hcond.
  - destruct (loop_body_invariant st Hinv Hcond)
      as (st1 & Hst1 & Hinv1 & Hcnt & Hpre1).
    rewrite Hst1. simpl.
    apply loop_cond_true in Hcond as Hroom. destruct Hroom as [_ Hroom].
    destruct (IH (loop_measure st1)) with (st := st1)
      as (st2 & Hrun & Hinv2 & Hstop & Hle & _ & _ & Hpre2 & Hreach);
      [|done|done|].
    { unfold loop_measure in *. lia. }
    exists st2. split_and!; try done; try lia.
    + by etrans.
    + intros stdin Hst. eapply Hreach, at_loop_again; done.
  - exists st. split_and!; done.
Qed.

Lemma main_loop_rounds st :
  loop_invariant st →
  ∃ n st', rounds n st = Some st' ∧ main_loop st = Some st' ∧
           blockCount st' = blockCount st + Z.of_nat n.
Proof.
  remember (loop_measure st) as m eqn:Hm. revert st Hm.
  induction m as [m IH] using lt_wf_ind. intros st Hm Hinv.
  rewrite main_loop_guard_eq.
  destruct (loop_cond st) eqn:Hcond.
  - destruct (loop_body_invariant st Hinv Hcond)
      as (st1 & Hst1 & Hinv1 & Hcnt & _).
    apply loop_cond_true in Hcond as Hroom. destruct Hroom as [_ Hroom].
    destruct (IH (loop_measure st1)) with (st := st1)
      as (n & st2 & Hn & Hrun & Hcnt2); [|done|done|].
    { unfold loop_measure in *. lia. }
    exists (S n), st2. simpl. rewrite Hcond, Hst1. simpl.
    split_and!; [done|done|lia].
  - exists 0%nat, st. simpl. split_and!; [done|done|lia].
Qed.

Lemma main_interactive_finishes stdin :
  ∃ st, main_interactive stdin = Some st ∧ loop_invariant st ∧
        loop_cond st = false ∧ 2 <= blockCount st ∧
        at_loop_head stdin st.
Proof.
  unfold main_interactive.
  destruct (main_init stdin) as [st0|] eqn:Hinit;
    [|by rewrite main_init_state in Hinit].
  pose proof (main_init_invariant stdin st0 Hinit) as Hinv0.
  destruct (main_loop_finishes st0 Hinv0)
    as (st & Hrun & Hinv & Hstop & _ & Hlt & _ & _ & Hreach).
  exists st. simpl. split_and!; try done.
  - rewrite main_init_state in Hinit. injection Hinit as <-.
    specialize (Hlt eq_refl). simpl in Hlt. lia.
  - by apply Hreach, at_loop_entry.
Qed.

Lemma at_loop_head_invariant stdin st :
  at_loop_head stdin st → loop_invariant st.
Proof.
  induction 1 as [st Hinit|st st' _ IH Hcond Hbody].
  - by eapply main_init_invariant.
  - destruct (loop_body_invariant st IH Hcond) as (st1 & Hst1 & Hinv1 & _).
    congruence.
Qed.

Lemma at_loop_head_main_loop stdin st :
  at_loop_head stdin st → main_interactive stdin = main_loop st.
Proof.
  induction 1 as [st Hinit|st st' _ IH Hcond Hbody].
  - unfold main_interactive. by rewrite Hinit.
  - by rewrite IH, main_loop_guard_eq, Hcond, Hbody.
Qed.

Lemma rounds_at_loop_head stdin n : ∀ st st',
  at_loop_head stdin st → rounds n st = Some st' → at_loop_head stdin st'.
Proof.
  induction n as [|n IH]; intros st st' Hst; simpl.
  - by intros [= <-].
  - destruct (loop_cond st) eqn:Hcond; [|done].
    destruct (loop_body st) as [st1|] eqn:Hbody; [simpl|done].
    apply IH. by eapply at_loop_again.
Qed.

Lemma chain_length st :
  loop_invariant st → length (chain st) = Z.to_nat (blockCount st).
Proof.
  intros [Hcap Hcount _ _ _]. unfold chain.
  apply length_take_le. lia.
Qed.

(** ** The hash function *)

(** C2, as the code has it: the accumulator of [simpleHash] is the sum of
    character code times 1-indexed position, wrapped to 32 bits, where the
    code of a character is what the plain [char] holding it converts to:
    its byte value, and for a byte above 127 the byte value less 256 where
    plain [char] is signed.  The result is the string of eight characters
    whose character at position [i] renders the nibble
    [(accumulator >> (i * 4)) & 0xF] with 0-9 as '0'-'9' and 10-15 as
    'A'-'F', least significant nibble first.  Where plain [char] is
    unsigned, and on 7-bit input everywhere, this is the sum and the digest
    over the byte values. *)
Theorem simpleHash_is_positional_checksum input :
  hash_value input = wrap32 (platform_weighted_sum input) ∧
  simpleHash input
  = string_of_list_ascii
      ((λ i, spec_hex_digit (Z.land (Z.shiftr (hash_value input) (i * 4)) 15))
         <$> [0; 1; 2; 3; 4; 5; 6; 7]) ∧
  simpleHash input = platform_digest input ∧
  (char_is_signed = false ∨ is_ascii7 input = true →
   hash_value input = wrap32 (spec_weighted_sum input) ∧
   simpleHash input = spec_digest input).
Proof.
  split_and!.
  - apply hash_value_accumulator.
  - rewrite simpleHash_digest. unfold platform_digest.
    by rewrite hash_value_accumulator.
  - apply simpleHash_digest.
  - intros Hcase. rewrite simpleHash_digest, hash_value_accumulator.
    unfold platform_digest, spec_digest, platform_accumulator,
      spec_accumulator.
    by rewrite (platform_weighted_sum_bytes input Hcase).
Qed.

(** C3, as the code has it: hashing "Hello", the content "Hello" joined
    with an empty predecessor hash, gives the accumulator 1585 and the
    digest "13600000" (1585 is 0x631). *)
Theorem simpleHash_Hello :
  hash_value ("Hello" +:+ "") = 1585 ∧
  simpleHash ("Hello" +:+ "") = "13600000" ∧
  hash (createBlock "Hello" "") = "13600000".
Proof. split_and!; reflexivity. Qed.

(** C4: [createBlock] keeps the content and the predecessor hash it is
    given and hashes their plain concatenation; it accepts every pair of
    strings, the empty ones included. *)
Theorem createBlock_fields content predecessorDigest :
  data (createBlock content predecessorDigest) = content ∧
  prevHash (createBlock content predecessorDigest) = predecessorDigest ∧
  hash (createBlock content predecessorDigest)
  = simpleHash (content +:+ predecessorDigest) ∧
  hash (createBlock content predecessorDigest)
  = platform_digest (content +:+ predecessorDigest) ∧
  createBlock "" ""
  = {| data := ""; prevHash := ""; hash := "00000000" |}.
Proof.
  split_and!; try reflexivity.
  simpl. apply simpleHash_digest.
Qed.

(** C9: for every input [simpleHash] returns exactly eight characters, each
    one of '0'-'9' or 'A'-'F'. *)
Theorem simpleHash_eight_hex_digits input :
  String.length (simpleHash input) = 8%nat ∧
  Forall (λ c, is_hex_digit c = true) (list_ascii_of_string (simpleHash input)).
Proof.
  rewrite simpleHash_digest. unfold platform_digest. split.
  - by rewrite length_string_of_list_ascii, length_fmap, length_seqZ.
  - rewrite list_ascii_of_string_of_list_ascii. apply spec_digits_hex.
Qed.


(** ** The chain *)

(** C1: in the chain [main] builds, and in every chain it holds on the
    way, each block after the first stores as [prevHash] the [hash] of the
    block before it; the block a round appends is created with the hash of
    the block that was last. *)
Theorem chain_linkage stdin :
  (∃ st, main_interactive stdin = Some st ∧
     ∀ i : nat, (1 ≤ i < length (chain st))%nat →
       ∃ b p, chain st !! i = Some b ∧ chain st !! (i - 1)%nat = Some p ∧
              prevHash b = hash p) ∧
  (∀ st, at_loop_head stdin st →
     linked (chain st) ∧
     (loop_cond st = true →
      ∃ prev st1, last (chain st) = Some prev ∧ body_append st = Some st1 ∧
        chain st1
        = chain st ++ [createBlock (getline (cin st) "").1 (hash prev)])).
Proof.
  split.
  - destruct (main_interactive_finishes stdin) as (st & Hrun & Hinv & _).
    exists st. split; [done|]. apply (inv_linked st Hinv).
  - intros st Hst. apply at_loop_head_invariant in Hst as Hinv.
    split; [apply (inv_linked st Hinv)|].
    intros [_ Hroom]%loop_cond_true.
    destruct (body_append_step st Hinv Hroom)
      as (prev & st1 & Hlast & Happ & _ & _ & _ & _ & _ & Hchain).
    by exists prev, st1.
Qed.

(** C5: whatever the input, the loop comes to an end after at most 9
    rounds and leaves a chain of at most 10 blocks, the genesis block
    followed by at most 9 blocks of user data; no chain held on the way is
    longer either. *)
Theorem capacity_bound stdin :
  (∃ st user_blocks n,
     main_interactive stdin = Some st ∧
     (n ≤ 9)%nat ∧ main_init stdin ≫= rounds n = Some st ∧
     loop_cond st = false ∧
     blockCount st <= MAX_BLOCKS ∧
     Z.of_nat (length (chain st)) = blockCount st ∧
     (length (chain st) ≤ 10)%nat ∧
     chain st = genesis :: user_blocks ∧
     (length user_blocks ≤ 9)%nat) ∧
  (∀ st, at_loop_head stdin st → (length (chain st) ≤ 10)%nat).
Proof.
  split.
  - destruct (main_interactive_finishes stdin)
      as (st & Hrun & Hinv & Hstop & _ & _).
    pose proof (main_init_invariant stdin _ (main_init_state stdin)) as Hinv0.
    destruct (main_loop_rounds _ Hinv0) as (n & st' & Hn & Hrun' & Hcnt).
    pose proof (at_loop_entry stdin _ (main_init_state stdin)) as Hhead.
    rewrite <- (at_loop_head_main_loop _ _ Hhead) in Hrun'.
    assert (st' = st) as -> by congruence.
    change (blockCount st = 1 + Z.of_nat n) in Hcnt.
    pose proof (chain_length st Hinv) as Hlen.
    destruct Hinv as [Hcap Hcount Hgen _ _]. unfold MAX_BLOCKS in *.
    destruct (chain st) as [|b user_blocks] eqn:Hchain; [done|].
    injection Hgen as ->. simpl in Hlen.
    exists st, user_blocks, n. rewrite main_init_state, Hchain.
    split_and!; simpl; first [done | lia].
  - intros st Hst%at_loop_head_invariant.
    rewrite (chain_length st Hst).
    destruct Hst as [_ Hcount _ _ _]. unfold MAX_BLOCKS in *. lia.
Qed.

(** C6, as the code has it: the genesis block, with the content
    "Genesis Block" and the predecessor hash "00000000", is stored before
    anything is read or written and stays at position 0.  The loop asks for
    the data of a first block before it asks whether to go on, so every
    chain has at least two blocks, and a run whose first answer is not 'y'
    ends with exactly two: the genesis block and one block of user data. *)
Theorem genesis_block_then_one_round stdin :
  ∃ st0 st b,
    main_init stdin = Some st0 ∧ cin st0 = stdin ∧ cout st0 = [] ∧
    chain st0 = [genesis] ∧
    data genesis = "Genesis Block" ∧ prevHash genesis = "00000000" ∧
    main_interactive stdin = Some st ∧
    chain st !! 0%nat = Some genesis ∧
    chain st !! 1%nat = Some b ∧
    (first_answer stdin ≠ "y"%char → chain st = [genesis; b]).
Proof.
  rewrite main_init_state. eexists.
  pose proof (at_loop_entry stdin _ (main_init_state stdin)) as Hhead.
  pose proof (at_loop_head_invariant _ _ Hhead) as Hinv0.
  destruct (body_append_step _ Hinv0)
    as (prev & st1 & Hlast & Happ & _ & _ & Hch & Hcin & _ & Hsnoc);
    [done|].
  destruct (body_continue_fields st1) as (_ & _ & Hchain & Hch2 & _).
  assert (Hbody : loop_body _ = Some (body_continue st1))
    by (unfold loop_body; by rewrite Happ).
  pose proof (at_loop_again stdin _ _ Hhead eq_refl Hbody) as Hhead1.
  pose proof (at_loop_head_invariant _ _ Hhead1) as Hinv1.
  destruct (main_loop_finishes _ Hinv1)
    as (st & Hrun & Hinv & _ & _ & _ & Hsame & [more Hmore] & _).
  change (Some genesis = Some prev) in Hlast. injection Hlast as <-.
  change (choice st1 = "y"%char) in Hch.
  change (cin st1 = (getline stdin "").2) in Hcin.
  change (chain st1
          = [genesis; createBlock (getline stdin "").1 (hash genesis)])
    in Hsnoc.
  exists st, (createBlock (getline stdin "").1 (hash genesis)).
  rewrite (at_loop_head_main_loop _ _ Hhead1), Hrun, Hmore, Hchain, Hsnoc.
  split_and!; try reflexivity.
  intros Hno. rewrite Hsame in Hmore.
  - rewrite Hchain, Hsnoc in Hmore.
    apply (f_equal length) in Hmore. rewrite length_app in Hmore.
    destruct more; [done|simpl in Hmore; lia].
  - unfold loop_cond. rewrite Hch2, Hcin, Hch.
    fold (first_answer stdin).
    by apply Ascii.eqb_neq in Hno as ->.
Qed.

(** C7, as the code has it: the round that appends the tenth block still
    asks "Add another block? (y/n): " and then runs [cin >> choice] and
    [cin.ignore()], which read the first character of the answer into
    [choice] and drop one more, or leave [choice] alone when the input has
    ended.  Whatever the outcome, the loop is left right after that, with
    no further request for data and with a chain of exactly 10 blocks. *)
Theorem capacity_reached_one_more_question stdin st :
  at_loop_head stdin st → loop_cond st = true →
  blockCount st + 1 = MAX_BLOCKS →
  ∃ st1,
    body_append st = Some st1 ∧
    blockCount st1 = MAX_BLOCKS ∧
    length (chain st1) = 10%nat ∧
    cout (body_continue st1) = cout st1 ++ ["Add another block? (y/n): "] ∧
    choice (body_continue st1) = (extract_char (cin st1) "y").1 ∧
    cin (body_continue st1) = ignore (extract_char (cin st1) "y").2 ∧
    chain (body_continue st1) = chain st1 ∧
    main_interactive stdin = Some (body_continue st1).
Proof.
  intros Hhead Hcond Hnine.
  pose proof (at_loop_head_invariant _ _ Hhead) as Hinv.
  apply loop_cond_true in Hcond as Hroom. destruct Hroom as [Hy Hroom].
  destruct (body_append_step st Hinv Hroom)
    as (prev & st1 & _ & Happ & _ & Hcnt & Hch & _ & _ & Hsnoc).
  destruct (body_continue_fields st1) as (_ & Hcnt2 & Hchain & Hch2 & Hout).
  exists st1. split_and!; try done.
  - lia.
  - rewrite Hsnoc, length_app, (chain_length st Hinv). simpl.
    unfold MAX_BLOCKS in *. lia.
  - by rewrite Hch2, Hch, Hy.
  - rewrite <- Hy, <- Hch. unfold body_continue.
    by destruct (extract_char (cin st1) (choice st1)).
  - rewrite (at_loop_head_main_loop _ _ Hhead).
    rewrite main_loop_guard_eq, Hcond. unfold loop_body. rewrite Happ. simpl.
    rewrite main_loop_guard_eq. unfold loop_cond at 1.
    rewrite Hcnt2, Hcnt, <- Hnine, Z.ltb_irrefl. by rewrite andb_false_r.
Qed.

(** C8, as the code has it: each round writes a line feed and then
    "Enter data for block <N>: ", where N is the number of blocks the chain
    holds at that moment, which is the 0-based position the new block is
    stored at. *)
Theorem data_prompt_shows_block_count stdin st :
  at_loop_head stdin st → loop_cond st = true →
  ∃ st1 b,
    body_append st = Some st1 ∧
    cout st1
    = cout st ++ [String LF "Enter data for block "
                  +:+ string_of_int (blockCount st) +:+ ": "] ∧
    blockCount st = Z.of_nat (length (chain st)) ∧
    chain st1 !! length (chain st) = Some b ∧
    array_get (blockchain st1) (blockCount st) = Some b ∧
    data b = (getline (cin st) "").1.
Proof.
  intros Hhead Hcond.
  pose proof (at_loop_head_invariant _ _ Hhead) as Hinv.
  apply loop_cond_true in Hcond as Hroom. destruct Hroom as [_ Hroom].
  destruct (body_append_step st Hinv Hroom)
    as (prev & st1 & _ & Happ & Harr & _ & _ & _ & Hout & Hsnoc).
  pose proof (chain_length st Hinv) as Hlen.
  destruct Hinv as [Hcap Hcount _ _ _]. unfold MAX_BLOCKS in *.
  exists st1, (createBlock (getline (cin st) "").1 (hash prev)).
  split_and!; try done.
  - lia.
  - by rewrite Hsnoc, list_lookup_middle.
  - rewrite array_get_lookup, Harr by lia.
    apply list_lookup_insert_eq. lia.
Qed.

(** The whole dialogue of a run: the prompts for the blocks 1, 2, ... in
    turn, each followed by the question whether to go on. *)
Lemma main_interactive_dialogue stdin :
  ∃ st, main_interactive stdin = Some st ∧
        cout st
        = flat_map (λ n, [data_prompt n; continue_prompt])
            (seqZ 1 (blockCount st - 1)).
Proof.
  destruct (main_interactive_finishes stdin) as (st & Hrun & Hinv & _).
  exists st. split; [done|]. apply (inv_cout st Hinv).
Qed.

(** ** The report *)

Lemma display_loop_succeeds arr l :
  Forall (λ i, 0 <= i < Z.of_nat (length arr)) l →
  ∀ out, is_Some (foldl (λ acc i, acc ≫= λ out, display_block arr out i)
                    (Some out) l).
Proof.
  induction 1 as [|i l Hi _ IH]; intros out; simpl; [done|].
  unfold display_block at 2. rewrite array_get_lookup by lia.
  destruct (lookup_lt_is_Some_2 arr (Z.to_nat i)) as [b ->]; [lia|].
  simpl. apply IH.
Qed.

(** [main] always gets to its [return 0]. *)
Lemma main_returns_0 stdin : ∃ out, main stdin = Some (out, 0).
Proof.
  destruct (main_interactive_finishes stdin) as (st & Hrun & Hinv & _).
  unfold main. rewrite Hrun. simpl. unfold main_display.
  destruct Hinv as [Hcap Hcount _ _ _]. unfold MAX_BLOCKS in *.
  edestruct (display_loop_succeeds (blockchain st) (seqZ 0 (blockCount st)))
    as [out ->]; [|by eexists].
  apply Forall_forall. intros i Hi%elem_of_seqZ. lia.
Qed.

(** * Further properties *)

(** ** Reading the digest back *)

Lemma hex_value_spec_hex_digit v :
  0 <= v < 16 → hex_value (spec_hex_digit v) = v.
Proof.
  intros Hv.
  apply (nibble_cases (λ v, hex_value (spec_hex_digit v) = v));
    [done|..]; reflexivity.
Qed.

Lemma spec_nibble_div_mod h i :
  0 <= i → spec_nibble h i = (h / 2 ^ (i * 4)) mod 16.
Proof.
  intros Hi. unfold spec_nibble. change 15 with (Z.ones 4).
  rewrite Z.land_ones, Z.shiftr_div_pow2 by lia. done.
Qed.

Lemma nibbles_sum h :
  h mod 16
  + 16 * ((h / 2 ^ 4) mod 16
  + 16 * ((h / 2 ^ 8) mod 16
  + 16 * ((h / 2 ^ 12) mod 16
  + 16 * ((h / 2 ^ 16) mod 16
  + 16 * ((h / 2 ^ 20) mod 16
  + 16 * ((h / 2 ^ 24) mod 16
  + 16 * ((h / 2 ^ 28) mod 16 + 16 * 0)))))))
  = h mod 2 ^ 32.
Proof.
  change (2 ^ 4) with 16. change (2 ^ 8) with (16 * 16).
  change (2 ^ 12) with (16 * 16 * 16).
  change (2 ^ 16) with (16 * 16 * 16 * 16).
  change (2 ^ 20) with (16 * 16 * 16 * 16 * 16).
  change (2 ^ 24) with (16 * 16 * 16 * 16 * 16 * 16).
  change (2 ^ 28) with (16 * 16 * 16 * 16 * 16 * 16 * 16).
  change (2 ^ 32) with (16 * 16 * 16 * 16 * 16 * 16 * 16 * 16).
  rewrite !Z.rem_mul_r by lia.
  rewrite <- !Z.div_div by lia.
  lia.
Qed.

Lemma hash_value_range input : INT_MIN <= hash_value input <= INT_MAX.
Proof. apply hash_loop_range. unfold INT_MIN, INT_MAX. lia. Qed.

Lemma digest_value_back input :
  digest_value (simpleHash input) = hash_value input.
Proof.
  rewrite simpleHash_digest. unfold platform_digest, digest_value.
  rewrite <- hash_value_accumulator.
  transitivity (wrap32 (hash_value input));
    [|apply wrap32_id, hash_value_range].
  apply wrap32_congr.
  change (seqZ 0 8) with [0; 1; 2; 3; 4; 5; 6; 7].
  cbn [fmap list_fmap string_of_list_ascii digits_value].
  rewrite !hex_value_spec_hex_digit by apply spec_nibble_range.
  rewrite !spec_nibble_div_mod by lia.
  cbn [Z.mul Pos.mul]. rewrite Z.pow_0_r, Z.div_1_r.
  by rewrite nibbles_sum, Zmod_mod.
Qed.

Lemma simpleHash_inj_hash_value input1 input2 :
  simpleHash input1 = simpleHash input2 → hash_value input1 = hash_value input2.
Proof.
  intros Heq. by rewrite <- (digest_value_back input1), Heq, digest_value_back.
Qed.

(** X1: the digest loses nothing of the accumulator.  Reading the eight
    characters back as a hexadecimal number, least significant digit first,
    gives the value [simpleHash] computed in its first loop; so two inputs
    have the same digest exactly when they have the same accumulator. *)
Theorem digest_value_simpleHash input1 input2 :
  digest_value (simpleHash input1) = hash_value input1 ∧
  (simpleHash input1 = simpleHash input2 ↔
   hash_value input1 = hash_value input2).
Proof.
  split; [apply digest_value_back|]. split.
  - apply simpleHash_inj_hash_value.
  - unfold simpleHash. by intros ->.
Qed.

(** ** How the accumulator is composed *)

Lemma hash_value_weighted_sum input :
  hash_value input = wrap32 (weighted_sum_from 1 input).
Proof.
  rewrite hash_value_accumulator. unfold platform_accumulator.
  by rewrite weighted_sum_from_platform.
Qed.

Lemma hash_value_mod input :
  hash_value input mod 2 ^ 32 = weighted_sum_from 1 input mod 2 ^ 32.
Proof. by rewrite hash_value_weighted_sum, wrap32_mod. Qed.

Lemma weighted_sum_from_app a : ∀ pos b,
  weighted_sum_from pos (a +:+ b)
  = weighted_sum_from pos a
    + weighted_sum_from (pos + Z.of_nat (String.length a)) b.
Proof.
  induction a as [|c a IH]; intros pos b.
  - simpl. by rewrite Z.add_0_r.
  - change (String.length (String c a)) with (S (String.length a)).
    rewrite Nat2Z.inj_succ. simpl. rewrite IH.
    replace (pos + 1 + Z.of_nat (String.length a))
      with (pos + Z.succ (Z.of_nat (String.length a))) by lia. lia.
Qed.

Lemma weighted_sum_from_shift b : ∀ pos k,
  weighted_sum_from (pos + k) b = weighted_sum_from pos b + k * char_sum b.
Proof.
  induction b as [|c b IH]; intros pos k; simpl; [lia|].
  replace (pos + k + 1) with (pos + 1 + k) by lia. rewrite IH. lia.
Qed.

Lemma add_mod_congr m a a' b b' :
  a mod m = a' mod m → b mod m = b' mod m → (a + b) mod m = (a' + b') mod m.
Proof. intros Ha Hb. by rewrite Zplus_mod, Ha, Hb, <- Zplus_mod. Qed.

(** X2: the accumulator of a concatenation.  Hashing [a] followed by [b]
    adds up the accumulators of the two parts and, because every character
    of [b] has moved [length a] places to the right, [length a] times the
    sum of the character codes of [b]; all in 32-bit arithmetic. *)
Theorem hash_value_app a b :
  hash_value (a +:+ b)
  = wrap32 (hash_value a + hash_value b
            + Z.of_nat (String.length a) * char_sum b).
Proof.
  rewrite (hash_value_weighted_sum (a +:+ b)). apply wrap32_congr.
  rewrite weighted_sum_from_app.
  rewrite weighted_sum_from_shift, Z.add_assoc.
  repeat apply add_mod_congr; try done; symmetry; apply hash_value_mod.
Qed.

(** ** Order and boundaries *)

Lemma int_of_char_range c : -128 <= int_of_char c <= 255.
Proof.
  unfold int_of_char. pose proof (N_ascii_bounded c) as Hc.
  destruct (Z.leb_spec 128 (Z.of_N (N_of_ascii c))), char_is_signed;
    simpl; lia.
Qed.

Lemma int_of_char_inj a b : int_of_char a = int_of_char b → a = b.
Proof.
  unfold int_of_char.
  pose proof (N_ascii_bounded a) as Ha. pose proof (N_ascii_bounded b) as Hb.
  intros Hab. rewrite <- (ascii_N_embedding a), <- (ascii_N_embedding b).
  f_equal.
  destruct (Z.leb_spec 128 (Z.of_N (N_of_ascii a))),
    (Z.leb_spec 128 (Z.of_N (N_of_ascii b))), char_is_signed;
    simpl in Hab; lia.
Qed.

(** X3: order matters for neighbours.  Exchanging two different characters
    that stand next to each other, anywhere in the input, always changes
    the digest. *)
Theorem adjacent_swap_changes_digest pre a b post :
  a ≠ b →
  simpleHash (pre +:+ String a (String b post))
  ≠ simpleHash (pre +:+ String b (String a post)).
Proof.
  intros Hab Heq%simpleHash_inj_hash_value.
  apply (f_equal (λ z, z mod 2 ^ 32)) in Heq.
  rewrite !hash_value_mod, !weighted_sum_from_app in Heq. simpl in Heq.
  pose proof (int_of_char_range a). pose proof (int_of_char_range b).
  assert (int_of_char a ≠ int_of_char b) by (by intros ?%int_of_char_inj).
  set (p := 1 + Z.of_nat (String.length pre)) in Heq.
  set (w := weighted_sum_from 1 pre) in Heq.
  set (r := weighted_sum_from (p + 1 + 1) post) in Heq.
  set (ca := int_of_char a) in *. set (cb := int_of_char b) in *.
  assert (Hdiff : (w + (ca * p + (cb * (p + 1) + r)))
                  = (w + (cb * p + (ca * (p + 1) + r))) + (cb - ca)) by lia.
  rewrite Hdiff in Heq. clearbody w r p ca cb.
  remember (w + (cb * p + (ca * (p + 1) + r))) as y eqn:Hy. clear Hy Hdiff.
  revert Heq. Z.div_mod_to_equations. lia.
Qed.

Lemma append_assoc (a b c : string) : (a +:+ b) +:+ c = a +:+ (b +:+ c).
Proof.
  induction a as [|x a IH]; [done|].
  change (String x ((a +:+ b) +:+ c) = String x (a +:+ (b +:+ c))).
  by rewrite IH.
Qed.

(** X4: a block's hash does not see where its data ends.  Moving text
    from the end of the data to the front of the predecessor hash leaves
    the hash of the block as it was. *)
Theorem createBlock_hash_boundary content moved predecessorDigest :
  hash (createBlock (content +:+ moved) predecessorDigest)
  = hash (createBlock content (moved +:+ predecessorDigest)).
Proof. simpl. by rewrite append_assoc. Qed.

(** ** Inputs that do not overflow *)

Lemma weighted_sum_from_bound input : ∀ pos,
  is_ascii7 input = true → 0 <= pos →
  0 <= weighted_sum_from pos input
    <= 127 * Z.of_nat (String.length input)
       * (pos + Z.of_nat (String.length input)).
Proof.
  induction input as [|c rest IH]; intros pos Hascii Hpos.
  - simpl. lia.
  - change (String.length (String c rest)) with (S (String.length rest)).
    rewrite Nat2Z.inj_succ. simpl in Hascii |- *.
    apply andb_prop in Hascii as [Hc%N.ltb_lt Hrest].
    specialize (IH (pos + 1) Hrest ltac:(lia)).
    assert (Hcode : 0 <= int_of_char c <= 127).
    { unfold int_of_char.
      destruct (Z.leb_spec 128 (Z.of_N (N_of_ascii c))); simpl; lia. }
    nia.
Qed.

(** X5: no overflow on ordinary text.  For an input of at most 4000
    characters, all of them 7-bit, the accumulator is the plain weighted
    sum, never wrapped and never negative. *)
Theorem hash_value_exact_on_ascii input :
  is_ascii7 input = true → (String.length input ≤ 4000)%nat →
  hash_value input = spec_weighted_sum input ∧ 0 <= hash_value input.
Proof.
  intros Hascii Hlen.
  pose proof (weighted_sum_from_bound input 1 Hascii ltac:(lia)) as Hbound.
  assert (Hfit : 0 <= weighted_sum_from 1 input <= INT_MAX).
  { unfold INT_MAX. nia. }
  rewrite hash_value_weighted_sum, wrap32_id by (unfold INT_MIN; lia).
  split; [|lia].
  rewrite weighted_sum_from_platform. apply platform_weighted_sum_bytes.
  by right.
Qed.

(** ** One round of the loop *)

Lemma loop_body_round st :
  loop_invariant st → loop_cond st = true →
  ∃ prev st',
    last (chain st) = Some prev ∧
    loop_body st = Some st' ∧
    loop_invariant st' ∧
    chain st' = chain st ++ [createBlock (getline (cin st) "").1 (hash prev)] ∧
    blockchain st'
    = <[Z.to_nat (blockCount st) :=
          createBlock (getline (cin st) "").1 (hash prev)]> (blockchain st) ∧
    blockCount st' = blockCount st + 1 ∧
    choice st' = (extract_char (getline (cin st) "").2 "y").1 ∧
    cin st' = ignore (extract_char (getline (cin st) "").2 "y").2.
Proof.
  intros Hinv Hcond.
  destruct (loop_cond_true st Hcond) as [Hy Hroom].
  destruct (body_append_step st Hinv Hroom)
    as (prev & st1 & Hlast & Happ & Harr & Hcnt & Hch & Hcin & _ & Hsnoc).
  destruct (body_continue_fields st1) as (Harr2 & Hcnt2 & Hchain2 & Hch2 & _).
  assert (Hbody : loop_body st = Some (body_continue st1))
    by (unfold loop_body; by rewrite Happ).
  destruct (loop_body_invariant st Hinv Hcond) as (st' & Hbody' & Hinv' & _).
  assert (st' = body_continue st1) as -> by congruence.
  exists prev, (body_continue st1).
  split_and!; try done.
  - by rewrite Hchain2.
  - by rewrite Harr2.
  - lia.
  - by rewrite Hch2, Hcin, Hch, Hy.
  - rewrite <- Hcin, <- Hy, <- Hch. unfold body_continue.
    by destruct (extract_char (cin st1) (choice st1)).
Qed.

(** ** What the array holds *)

Lemma simpleHash_length input : String.length (simpleHash input) = 8%nat.
Proof.
  rewrite simpleHash_digest. unfold platform_digest.
  by rewrite length_string_of_list_ascii, length_fmap, length_seqZ.
Qed.

Lemma at_loop_head_blocks stdin st :
  at_loop_head stdin st →
  Forall (λ b, hash b = simpleHash (data b +:+ prevHash b) ∧
               String.length (prevHash b) = 8%nat) (chain st).
Proof.
  induction 1 as [st Hinit|st st' Hst IH Hcond Hbody].
  - rewrite main_init_state in Hinit. injection Hinit as <-.
    apply Forall_singleton. split; reflexivity.
  - pose proof (at_loop_head_invariant _ _ Hst) as Hinv.
    destruct (loop_body_round st Hinv Hcond)
      as (prev & st2 & Hlast & Hbody2 & _ & Hsnoc & _).
    assert (st2 = st') as -> by congruence.
    rewrite Hsnoc. apply Forall_app. split; [done|].
    apply Forall_singleton. split; [reflexivity|]. simpl.
    apply last_Some_elem_of in Hlast.
    rewrite Forall_forall in IH. destruct (IH prev Hlast) as [-> _].
    apply simpleHash_length.
Qed.

Lemma at_loop_head_unused stdin st :
  at_loop_head stdin st →
  drop (Z.to_nat (blockCount st)) (blockchain st)
  = replicate (Z.to_nat (MAX_BLOCKS - blockCount st)) empty_Block.
Proof.
  induction 1 as [st Hinit|st st' Hst IH Hcond Hbody].
  - rewrite main_init_state in Hinit. by injection Hinit as <-.
  - pose proof (at_loop_head_invariant _ _ Hst) as Hinv.
    destruct (loop_body_round st Hinv Hcond)
      as (prev & st2 & _ & Hbody2 & _ & _ & Harr & Hcnt & _).
    assert (st2 = st') as -> by congruence.
    destruct Hinv as [_ Hcount _ _ _].
    rewrite Harr, Hcnt.
    replace (Z.to_nat (blockCount st + 1))
      with (Z.to_nat (blockCount st) + 1)%nat by lia.
    rewrite drop_insert_lt by lia.
    rewrite <- drop_drop, IH, drop_replicate. f_equal. lia.
Qed.

(** X6: every block of the chain [main] builds is consistent with its own
    content: its hash is [simpleHash] of its data followed by its
    predecessor hash, and both hashes it stores have eight characters. *)
Theorem chain_blocks_hashed stdin :
  ∃ st, main_interactive stdin = Some st ∧
    Forall (λ b, hash b = simpleHash (data b +:+ prevHash b) ∧
                 String.length (hash b) = 8%nat ∧
                 String.length (prevHash b) = 8%nat) (chain st).
Proof.
  destruct (main_interactive_finishes stdin) as (st & Hrun & _ & _ & _ & Hst).
  exists st. split; [done|].
  eapply Forall_impl; [by apply (at_loop_head_blocks stdin)|].
  intros b [Hhash Hprev]. split_and!; try done.
  rewrite Hhash. apply simpleHash_length.
Qed.

(** X7: the loop writes the array only at the end of the chain.  When it
    is left, the cells beyond [blockCount] still hold the empty blocks the
    array was declared with. *)
Theorem unused_cells_stay_empty stdin :
  ∃ st, main_interactive stdin = Some st ∧
    blockchain st
    = chain st
      ++ replicate (Z.to_nat (MAX_BLOCKS - blockCount st)) empty_Block.
Proof.
  destruct (main_interactive_finishes stdin) as (st & Hrun & _ & _ & _ & Hst).
  exists st. split; [done|].
  rewrite <- (at_loop_head_unused stdin st Hst). unfold chain.
  by rewrite take_drop.
Qed.

(** X8: the chain only grows.  The chain held after any number of rounds
    is an initial part of the chain the loop ends with: no block, once
    stored, is changed or removed. *)
Theorem chain_append_only stdin n st st' :
  main_init stdin ≫= rounds n = Some st →
  main_interactive stdin = Some st' →
  chain st `prefix_of` chain st'.
Proof.
  intros Hn Hrun.
  assert (Hst : at_loop_head stdin st).
  { rewrite main_init_state in Hn.
    eapply rounds_at_loop_head; [|exact Hn].
    apply at_loop_entry, main_init_state. }
  rewrite (at_loop_head_main_loop _ _ Hst) in Hrun.
  destruct (main_loop_finishes st (at_loop_head_invariant _ _ Hst))
    as (st2 & Hrun2 & _ & _ & _ & _ & _ & Hpre & _).
  by assert (st2 = st') as -> by congruence.
Qed.

(** ** The report *)

Lemma display_block_report arr out (n : nat) b :
  arr !! n = Some b →
  display_block arr out (Z.of_nat n) = Some (out ++ report_block n b).
Proof.
  intros Hb. unfold display_block.
  rewrite array_get_lookup, Nat2Z.id, Hb by lia. simpl.
  unfold put, report_block, nl. by rewrite <- !app_assoc.
Qed.

Lemma display_loop_report arr out (n : nat) :
  (n ≤ length arr)%nat →
  foldl (λ acc i, acc ≫= λ out, display_block arr out i)
    (Some out) (seqZ 0 (Z.of_nat n))
  = Some (out ++ mjoin (imap report_block (take n arr))).
Proof.
  induction n as [|n IH]; intros Hn.
  - simpl. by rewrite app_nil_r.
  - destruct (lookup_lt_is_Some_2 arr n) as [b Hb]; [lia|].
    rewrite seqZ_S, foldl_app, IH by lia. simpl.
    rewrite (display_block_report arr _ n b Hb).
    rewrite (take_S_r _ _ b Hb), imap_app, join_app. simpl.
    rewrite length_take_le, Nat.add_0_r by lia.
    by rewrite <- app_assoc.
Qed.

(** X9: [main] always reaches its [return 0], without ever indexing the
    array out of range, and what it has written by then is the dialogue of
    the loop followed by the report: the header and, for each block of the
    chain in order, its position, data, predecessor hash and hash. *)
Theorem main_output stdin :
  ∃ st, main_interactive stdin = Some st ∧
        main stdin = Some (cout st ++ report (chain st), 0).
Proof.
  destruct (main_interactive_finishes stdin) as (st & Hrun & Hinv & _).
  exists st. split; [done|].
  unfold main. rewrite Hrun. simpl. unfold main_display.
  destruct Hinv as [Hcap Hcount _ _ _]. unfold MAX_BLOCKS in *.
  rewrite <- (Z2Nat.id (blockCount st)) at 1 by lia.
  rewrite display_loop_report by lia. simpl.
  unfold put, report, chain. by rewrite <- app_assoc.
Qed.

(** ** A session typed line by line *)

Lemma split_line_one_line t rest :
  one_line t = true → split_line (t +:+ String LF rest) = (t, Some rest).
Proof.
  induction t as [|c t IH]; intros Ht; [done|].
  simpl in Ht. apply andb_prop in Ht as [Hc%negb_true_iff Ht].
  change (String c t +:+ String LF rest) with (String c (t +:+ String LF rest)).
  simpl. by rewrite Hc, (IH Ht).
Qed.

Lemma getline_session t rest :
  one_line t = true →
  getline (stdin_of (t +:+ nl +:+ rest)) "" = (t, stdin_of rest).
Proof.
  intros Ht. unfold getline, stdin_of. simpl.
  change (nl +:+ rest) with (String LF rest).
  by rewrite (split_line_one_line t rest Ht).
Qed.

Lemma session_run lines : ∀ st,
  loop_invariant st → choice st = "y"%char →
  cin st = stdin_of (session lines) → lines ≠ [] →
  Forall (λ t, one_line t = true) lines →
  ∃ st', main_loop st = Some st' ∧
         data <$> chain st'
         = (data <$> chain st)
           ++ take (Z.to_nat (MAX_BLOCKS - blockCount st)) lines.
Proof.
  induction lines as [|t rest IH]; intros st Hinv Hy Hcin Hne Hlines; [done|].
  apply Forall_cons in Hlines as [Ht Hrest].
  rewrite main_loop_guard_eq.
  destruct (Z.ltb_spec (blockCount st) MAX_BLOCKS) as [Hroom|Hfull].
  - assert (Hcond : loop_cond st = true).
    { unfold loop_cond. rewrite Hy. by apply andb_true_intro, conj,
        Z.ltb_lt. }
    destruct (loop_body_round st Hinv Hcond)
      as (prev & st1 & _ & Hbody & Hinv1 & Hsnoc & _ & Hcnt & Hch & Hcin1).
    rewrite Hcond, Hbody. simpl.
    rewrite Hcin in Hsnoc, Hch, Hcin1.
    assert (Hdata : data <$> chain st1 = (data <$> chain st) ++ [t]).
    { rewrite Hsnoc, fmap_app. simpl. destruct rest; simpl;
        by rewrite (getline_session t _ Ht). }
    replace (Z.to_nat (MAX_BLOCKS - blockCount st))
      with (S (Z.to_nat (MAX_BLOCKS - blockCount st1))) by lia.
    destruct rest as [|t2 rest].
    + simpl in Hch, Hcin1. rewrite (getline_session t _ Ht) in Hch.
      exists st1. rewrite main_loop_guard_eq. unfold loop_cond.
      rewrite Hch. simpl. by rewrite Hdata, take_nil.
    + change (session (t :: t2 :: rest))
        with (t +:+ nl +:+ "y" +:+ nl +:+ session (t2 :: rest)) in Hch, Hcin1.
      rewrite (getline_session t _ Ht) in Hch, Hcin1.
      destruct (IH st1 Hinv1 Hch Hcin1 ltac:(done) Hrest) as (st2 & Hrun & Hd).
      exists st2. split; [done|].
      rewrite Hd, Hdata, <- app_assoc. done.
  - exists st. unfold loop_cond.
    destruct (Z.ltb_spec (blockCount st) MAX_BLOCKS); [lia|].
    rewrite andb_false_r. split; [done|].
    replace (Z.to_nat (MAX_BLOCKS - blockCount st)) with 0%nat by lia.
    by rewrite app_nil_r.
Qed.

(** X10: a session comes back as the data of the chain.  When the user
    types one line per block, answers y after each but the last and n after
    the last, the chain holds the genesis block and then one block for each
    of the first nine lines, with exactly that line as its data and in the
    order typed. *)
Theorem session_round_trip lines :
  lines ≠ [] → Forall (λ t, one_line t = true) lines →
  ∃ st, main_interactive (stdin_of (session lines)) = Some st ∧
        data <$> chain st = "Genesis Block" :: take 9 lines.
Proof.
  intros Hne Hlines.
  pose proof (at_loop_entry _ _ (main_init_state (stdin_of (session lines))))
    as Hhead.
  rewrite (at_loop_head_main_loop _ _ Hhead).
  destruct (session_run lines _ (at_loop_head_invariant _ _ Hhead)
              eq_refl eq_refl Hne Hlines) as (st & Hrun & Hdata).
  by exists st.
Qed.

(** ** Running out of input *)

Lemma good_set_failbit s : good (set_failbit s) = false.
Proof. unfold good. simpl. apply andb_false_r. Qed.

Lemma getline_starved s :
  good s = false ∨ pending s = "" →
  (getline s "").1 = "" ∧ good (getline s "").2 = false.
Proof.
  unfold getline. destruct (good s) eqn:Hgood.
  - intros [?| ->]; [done|]. simpl. done.
  - intros _. simpl. split; [done|apply good_set_failbit].
Qed.

Lemma extract_char_not_good s c :
  good s = false →
  (extract_char s c).1 = c ∧ good (extract_char s c).2 = false.
Proof.
  unfold extract_char. intros ->. simpl. split; [done|apply good_set_failbit].
Qed.

Lemma ignore_not_good s : good s = false → good (ignore s) = false.
Proof. unfold ignore. intros ->. apply good_set_failbit. Qed.

Lemma starved_run (k : nat) : ∀ st,
  Z.to_nat (MAX_BLOCKS - blockCount st) = k →
  loop_invariant st → choice st = "y"%char →
  good (cin st) = false ∨ pending (cin st) = "" →
  ∃ st', main_loop st = Some st' ∧ blockCount st' = MAX_BLOCKS ∧
         data <$> chain st' = (data <$> chain st) ++ replicate k "".
Proof.
  induction k as [|k IH]; intros st Hk Hinv Hy Hcin;
    pose proof (inv_count st Hinv) as Hcount;
    rewrite main_loop_guard_eq; unfold loop_cond at 1.
  - destruct (Z.ltb_spec (blockCount st) MAX_BLOCKS); [lia|].
    rewrite andb_false_r. exists st. simpl.
    split_and!; [done|lia|by rewrite app_nil_r].
  - assert (Hcond : loop_cond st = true).
    { unfold loop_cond. rewrite Hy. apply andb_true_intro, conj; [done|].
      apply Z.ltb_lt. lia. }
    fold (loop_cond st). rewrite Hcond.
    destruct (loop_body_round st Hinv Hcond)
      as (prev & st1 & _ & Hbody & Hinv1 & Hsnoc & _ & Hcnt & Hch & Hcin1).
    rewrite Hbody. simpl.
    destruct (getline_starved (cin st) Hcin) as [Hline Hbad].
    destruct (extract_char_not_good _ "y" Hbad) as [Hc Hbad2].
    destruct (IH st1) as (st2 & Hrun & Hfull & Hdata).
    + lia.
    + done.
    + by rewrite Hch, Hc.
    + left. rewrite Hcin1. by apply ignore_not_good.
    + exists st2. split_and!; [done|done|].
      rewrite Hdata, Hsnoc, fmap_app, Hline, <- app_assoc. done.
Qed.

(** X11: when the input runs out the loop does not wait and does not stop
    early.  If at the start of a round the stream is no longer good, or has
    nothing left, every block from there on gets the empty string as data,
    and the loop goes on until the chain holds all 10 blocks. *)
Theorem out_of_input_fills_chain stdin st :
  at_loop_head stdin st → loop_cond st = true →
  good (cin st) = false ∨ pending (cin st) = "" →
  ∃ st', main_interactive stdin = Some st' ∧
         blockCount st' = MAX_BLOCKS ∧
         data <$> chain st'
         = (data <$> chain st)
           ++ replicate (Z.to_nat (MAX_BLOCKS - blockCount st)) "".
Proof.
  intros Hst [Hy _]%loop_cond_true Hcin.
  rewrite (at_loop_head_main_loop _ _ Hst).
  by apply starved_run; [|apply (at_loop_head_invariant stdin)|..].
Qed.

(** ** The answer line *)

(** X12: of the answer only the first character counts, and only one more
    character is dropped.  When the answer starts with y and room is left,
    whatever follows the second character of the answer, up to the next
    line feed, becomes the data of the next block: after y and a line feed
    that is the next line typed, after a longer answer it is the rest of
    the answer. *)
Theorem answer_rest_is_next_data stdin st t c tail rest :
  at_loop_head stdin st → loop_cond st = true →
  blockCount st + 1 < MAX_BLOCKS →
  one_line t = true → one_line tail = true →
  cin st = stdin_of (t +:+ nl +:+ String "y" (String c (tail +:+ nl +:+ rest))) →
  ∃ st1 st2,
    loop_body st = Some st1 ∧ loop_cond st1 = true ∧
    body_append st1 = Some st2 ∧
    data <$> chain st2 = (data <$> chain st) ++ [t; tail] ∧
    cin st2 = stdin_of rest.
Proof.
  intros Hst Hcond Hroom Ht Htail Hcin.
  pose proof (at_loop_head_invariant _ _ Hst) as Hinv.
  destruct (loop_body_round st Hinv Hcond)
    as (prev & st1 & _ & Hbody & Hinv1 & Hsnoc & _ & Hcnt & Hch & Hcin1).
  rewrite Hcin, (getline_session t _ Ht) in Hsnoc, Hch, Hcin1.
  change (choice st1 = "y"%char) in Hch.
  change (cin st1 = stdin_of (tail +:+ nl +:+ rest)) in Hcin1.
  destruct (body_append_step st1 Hinv1)
    as (prev1 & st2 & _ & Happ & _ & _ & _ & Hcin2 & _ & Hsnoc2); [lia|].
  rewrite Hcin1, (getline_session tail _ Htail) in Hsnoc2, Hcin2.
  exists st1, st2. split_and!; try done.
  - unfold loop_cond. rewrite Hch. apply andb_true_intro, conj; [done|].
    apply Z.ltb_lt. lia.
  - rewrite Hsnoc2, Hsnoc, !fmap_app, <- app_assoc. done.
Qed.

End Program.

(** * Concrete runs

    The runs below are on a platform whose plain [char] is signed. *)

(** A user who enters one block and then declines. *)
Definition one_block_input : string :=
  "first" +:+ nl +:+ "n" +:+ nl.

(** A user who enters nine blocks and answers y every time. *)
Definition nine_blocks_input : string :=
  "b1" +:+ nl +:+ "y" +:+ nl +:+ "b2" +:+ nl +:+ "y" +:+ nl +:+
  "b3" +:+ nl +:+ "y" +:+ nl +:+ "b4" +:+ nl +:+ "y" +:+ nl +:+
  "b5" +:+ nl +:+ "y" +:+ nl +:+ "b6" +:+ nl +:+ "y" +:+ nl +:+
  "b7" +:+ nl +:+ "y" +:+ nl +:+ "b8" +:+ nl +:+ "y" +:+ nl +:+
  "b9" +:+ nl +:+ "y" +:+ nl.

Example string_of_int_examples :
  string_of_int 0 = "0" ∧ string_of_int 10 = "10" ∧ string_of_int (-3) = "-3".
Proof. done. Qed.

Example one_block_run :
  main true (stdin_of one_block_input)
  = Some ([String LF "Enter data for block 1: ";
           "Add another block? (y/n): ";
           String LF "=== Blockchain ===" +:+ nl;
           "Block 0:" +:+ nl;
           "  Data      : Genesis Block" +:+ nl;
           "  Prev Hash : 00000000" +:+ nl;
           "  Hash      : B6C30000" +:+ nl +:+ nl;
           "Block 1:" +:+ nl;
           "  Data      : first" +:+ nl;
           "  Prev Hash : B6C30000" +:+ nl;
           "  Hash      : 72610000" +:+ nl +:+ nl], 0).
Proof. vm_compute. reflexivity. Qed.

(** A byte above 127 is hashed differently under the two readings of
    [char]. *)
Example simpleHash_high_byte :
  simpleHash true (String "233" "") = "9EFFFFFF" ∧
  simpleHash false (String "233" "") = "9E000000".
Proof. split; vm_compute; reflexivity. Qed.

(** More answers than the chain has room for: the loop stops at ten blocks
    and leaves the rest of the input unread. *)
Fixpoint eager_input (n : nat) : string :=
  match n with
  | O => ""
  | S n => "data" +:+ nl +:+ "y" +:+ nl +:+ eager_input n
  end.

Example twelve_answers_run :
  ∃ st, main_interactive true (stdin_of (eager_input 12)) = Some st ∧
        blockCount st = 10 ∧ length (chain st) = 10%nat ∧
        pending (cin st) = eager_input 3.
Proof. eexists. split; [vm_compute; reflexivity|]. done. Qed.

Lemma chain_linkage_witness :
  ∃ st b p,
    main_interactive true (stdin_of one_block_input) = Some st ∧
    (1 ≤ 1 < length (chain st))%nat ∧
    chain st !! 1%nat = Some b ∧ chain st !! 0%nat = Some p ∧
    prevHash b = hash p.
Proof.
  destruct (chain_linkage true (stdin_of one_block_input))
    as [(st & Hrun & Hlink) _].
  assert (Hlen : (1 ≤ 1 < length (chain st))%nat).
  { vm_compute in Hrun. injection Hrun as <-. vm_compute. lia. }
  destruct (Hlink 1%nat Hlen) as (b & p & Hb & Hp & Heq).
  exists st, b, p. split_and!; [exact Hrun|lia|lia|exact Hb|exact Hp|exact Heq].
Defined.

(** C2, refuted as worded: where plain [char] is signed, the byte 233
    enters the sum as -23, not as its byte value, and the digest differs
    from the one over byte values. *)
Lemma simpleHash_high_byte_not_byte_value :
  byte_value "233" = 233 ∧
  spec_accumulator (String "233" "") = 233 ∧
  spec_digest (String "233" "") = "9E000000" ∧
  hash_value true (String "233" "") = -23 ∧
  simpleHash true (String "233" "") = "9EFFFFFF" ∧
  hash_value true (String "233" "") ≠ spec_accumulator (String "233" "") ∧
  simpleHash true (String "233" "") ≠ spec_digest (String "233" "").
Proof. split_and!; vm_compute; congruence. Qed.

Lemma simpleHash_is_positional_checksum_witness :
  (true = false ∨ is_ascii7 "Hello" = true) ∧
  hash_value true "Hello" = wrap32 (spec_weighted_sum "Hello") ∧
  simpleHash true "Hello" = spec_digest "Hello".
Proof.
  assert (Hcase : true = false ∨ is_ascii7 "Hello" = true)
    by (right; reflexivity).
  split; [exact Hcase|].
  destruct (simpleHash_is_positional_checksum true "Hello")
    as (_ & _ & _ & Hbytes).
  exact (Hbytes Hcase).
Defined.

(** C3, refuted as worded: the digest of "Hello" is not "12600000". *)
Lemma simpleHash_Hello_not_12600000 :
  hash_value true ("Hello" +:+ "") = 1585 ∧
  simpleHash true ("Hello" +:+ "") = "13600000" ∧
  simpleHash true ("Hello" +:+ "") ≠ "12600000" ∧
  simpleHash false ("Hello" +:+ "") ≠ "12600000".
Proof. split_and!; vm_compute; congruence. Qed.

(** C6, refuted as worded: a user who declines at the first question is
    left with two blocks, not one. *)
Lemma first_decline_leaves_two_blocks :
  first_answer (stdin_of one_block_input) = "n"%char ∧
  ∃ st, main_interactive true (stdin_of one_block_input) = Some st ∧
        blockCount st = 2 ∧
        length (chain st) = 2%nat ∧
        length (chain st) ≠ 1%nat ∧
        chain st ≠ [genesis true].
Proof.
  split; [reflexivity|]. eexists.
  split; [vm_compute; reflexivity|].
  split_and!; vm_compute; congruence.
Qed.

Lemma genesis_block_then_one_round_witness :
  first_answer (stdin_of one_block_input) ≠ "y"%char ∧
  ∃ st b,
    main_interactive true (stdin_of one_block_input) = Some st ∧
    chain st = [genesis true; b].
Proof.
  assert (Hno : first_answer (stdin_of one_block_input) ≠ "y"%char)
    by (vm_compute; congruence).
  split; [exact Hno|].
  destruct (genesis_block_then_one_round true (stdin_of one_block_input))
    as (st0 & st & b & _ & _ & _ & _ & _ & _ & Hrun & _ & _ & Hdecline).
  exists st, b. split; [exact Hrun|exact (Hdecline Hno)].
Defined.

(** C7, refuted as worded: after the tenth block is stored the question
    whether to go on is written once more. *)
Lemma question_after_tenth_block :
  ∃ st st1,
    main_init true (stdin_of nine_blocks_input) ≫= rounds true 8 = Some st ∧
    body_append true st = Some st1 ∧
    blockCount st1 = MAX_BLOCKS ∧
    length (chain st1) = 10%nat ∧
    main_interactive true (stdin_of nine_blocks_input)
    = Some (body_continue st1) ∧
    cout (body_continue st1) = cout st1 ++ ["Add another block? (y/n): "] ∧
    cout (body_continue st1) ≠ cout st1.
Proof.
  eexists. eexists.
  split; [vm_compute; reflexivity|].
  split; [vm_compute; reflexivity|].
  split_and!; vm_compute; congruence.
Qed.

Lemma capacity_reached_one_more_question_witness :
  ∃ st,
    main_init true (stdin_of nine_blocks_input) ≫= rounds true 8 = Some st ∧
    loop_cond st = true ∧
    blockCount st + 1 = MAX_BLOCKS ∧
    ∃ st1,
      body_append true st = Some st1 ∧
      blockCount st1 = MAX_BLOCKS ∧
      length (chain st1) = 10%nat ∧
      cout (body_continue st1) = cout st1 ++ ["Add another block? (y/n): "] ∧
      choice (body_continue st1) = (extract_char (cin st1) "y").1 ∧
      cin (body_continue st1) = ignore (extract_char (cin st1) "y").2 ∧
      chain (body_continue st1) = chain st1 ∧
      main_interactive true (stdin_of nine_blocks_input)
      = Some (body_continue st1).
Proof.
  eexists.
  split; [vm_compute; reflexivity|].
  split; [reflexivity|]. split; [reflexivity|].
  apply (capacity_reached_one_more_question true (stdin_of nine_blocks_input)).
  - eapply (rounds_at_loop_head true _ 8).
    + apply at_loop_entry. reflexivity.
    + vm_compute. reflexivity.
  - reflexivity.
  - reflexivity.
Defined.

(** The last answer of that run is read: the stream holds "y" and a line
    feed when the tenth block has been stored, and nothing after the
    round. *)
Example tenth_answer_is_read :
  ∃ st st1,
    main_init true (stdin_of nine_blocks_input) ≫= rounds true 8 = Some st ∧
    body_append true st = Some st1 ∧
    pending (cin st1) = "y" +:+ nl ∧
    choice (body_continue st1) = "y"%char ∧
    pending (cin (body_continue st1)) = "" ∧
    loop_cond (body_continue st1) = false.
Proof.
  eexists. eexists.
  split; [vm_compute; reflexivity|].
  split; [vm_compute; reflexivity|].
  split_and!; reflexivity.
Qed.

(** A run whose input ends with the ninth line of data: the question is
    written, nothing is read, [choice] stays at y and the loop is left
    because the chain is full. *)
Definition nine_lines_no_answer : string :=
  "b1" +:+ nl +:+ "y" +:+ nl +:+ "b2" +:+ nl +:+ "y" +:+ nl +:+
  "b3" +:+ nl +:+ "y" +:+ nl +:+ "b4" +:+ nl +:+ "y" +:+ nl +:+
  "b5" +:+ nl +:+ "y" +:+ nl +:+ "b6" +:+ nl +:+ "y" +:+ nl +:+
  "b7" +:+ nl +:+ "y" +:+ nl +:+ "b8" +:+ nl +:+ "y" +:+ nl +:+
  "b9" +:+ nl.

Example tenth_answer_missing :
  ∃ st st1,
    main_init true (stdin_of nine_lines_no_answer) ≫= rounds true 8
    = Some st ∧
    body_append true st = Some st1 ∧
    pending (cin st1) = "" ∧
    cout (body_continue st1) = cout st1 ++ ["Add another block? (y/n): "] ∧
    choice (body_continue st1) = "y"%char ∧
    good (cin (body_continue st1)) = false ∧
    main_interactive true (stdin_of nine_lines_no_answer)
    = Some (body_continue st1) ∧
    length (chain (body_continue st1)) = 10%nat.
Proof.
  eexists. eexists.
  split; [vm_compute; reflexivity|].
  split; [vm_compute; reflexivity|].
  split_and!; vm_compute; reflexivity.
Qed.

(** C8, refuted as worded: the first prompt starts with a line feed and
    names block 1, although the block about to be created is the second
    of the chain. *)
Lemma first_prompt_names_block_1 :
  ∃ st0 st1,
    main_init true (stdin_of one_block_input) = Some st0 ∧
    Z.of_nat (length (chain st0)) = 1 ∧
    body_append true st0 = Some st1 ∧
    cout st1 = [String LF "Enter data for block 1: "] ∧
    cout st1 ≠ ["Enter data for block 2: "].
Proof.
  eexists. eexists.
  split; [vm_compute; reflexivity|].
  split; [reflexivity|].
  split; [vm_compute; reflexivity|].
  split; vm_compute; congruence.
Qed.

Lemma data_prompt_shows_block_count_witness :
  ∃ st,
    main_init true (stdin_of one_block_input) = Some st ∧
    loop_cond st = true ∧
    ∃ st1 b,
      body_append true st = Some st1 ∧
      cout st1
      = cout st ++ [String LF "Enter data for block "
                    +:+ string_of_int (blockCount st) +:+ ": "] ∧
      blockCount st = Z.of_nat (length (chain st)) ∧
      chain st1 !! length (chain st) = Some b ∧
      array_get (blockchain st1) (blockCount st) = Some b ∧
      data b = (getline (cin st) "").1.
Proof.
  eexists.
  split; [vm_compute; reflexivity|].
  split; [reflexivity|].
  apply (data_prompt_shows_block_count true (stdin_of one_block_input)).
  - apply at_loop_entry. reflexivity.
  - reflexivity.
Defined.


(** * Concrete instances of the further properties *)

Lemma adjacent_swap_changes_digest_witness :
  "A"%char ≠ "B"%char ∧ simpleHash true "AB" ≠ simpleHash true "BA".
Proof.
  assert (Hne : "A"%char ≠ "B"%char) by discriminate.
  split; [exact Hne|].
  exact (adjacent_swap_changes_digest true "" "A" "B" "" Hne).
Defined.

(** Characters further apart can be rearranged without the digest
    noticing. *)
Example rearrangement_with_equal_digest :
  simpleHash true "bac" = simpleHash true "acb".
Proof. vm_compute. reflexivity. Qed.

Lemma hash_value_exact_on_ascii_witness :
  is_ascii7 "Hello" = true ∧ (String.length "Hello" ≤ 4000)%nat ∧
  hash_value true "Hello" = spec_weighted_sum "Hello" ∧
  0 <= hash_value true "Hello".
Proof.
  assert (Hascii : is_ascii7 "Hello" = true) by reflexivity.
  assert (Hlen : (String.length "Hello" ≤ 4000)%nat) by (simpl; lia).
  split; [exact Hascii|]. split; [exact Hlen|].
  exact (hash_value_exact_on_ascii true "Hello" Hascii Hlen).
Defined.

Lemma chain_append_only_witness :
  ∃ st st',
    main_init true (stdin_of nine_blocks_input) ≫= rounds true 3 = Some st ∧
    main_interactive true (stdin_of nine_blocks_input) = Some st' ∧
    chain st `prefix_of` chain st'.
Proof.
  eexists. eexists.
  split; [vm_compute; reflexivity|].
  split; [vm_compute; reflexivity|].
  eapply (chain_append_only true (stdin_of nine_blocks_input) 3);
    vm_compute; reflexivity.
Defined.

Lemma session_round_trip_witness :
  ["alpha"; "beta gamma"] ≠ [] ∧
  Forall (λ t, one_line t = true) ["alpha"; "beta gamma"] ∧
  ∃ st,
    main_interactive true (stdin_of (session ["alpha"; "beta gamma"]))
    = Some st ∧
    data <$> chain st = "Genesis Block" :: take 9 ["alpha"; "beta gamma"].
Proof.
  assert (Hne : ["alpha"; "beta gamma"] ≠ @nil string) by discriminate.
  assert (Hlines : Forall (λ t, one_line t = true) ["alpha"; "beta gamma"])
    by (repeat constructor).
  split; [exact Hne|]. split; [exact Hlines|].
  exact (session_round_trip true ["alpha"; "beta gamma"] Hne Hlines).
Defined.

Lemma out_of_input_fills_chain_witness :
  ∃ st,
    main_init true (stdin_of "") = Some st ∧
    loop_cond st = true ∧
    (good (cin st) = false ∨ pending (cin st) = "") ∧
    ∃ st', main_interactive true (stdin_of "") = Some st' ∧
           blockCount st' = MAX_BLOCKS ∧
           data <$> chain st'
           = (data <$> chain st)
             ++ replicate (Z.to_nat (MAX_BLOCKS - blockCount st)) "".
Proof.
  eexists.
  split; [vm_compute; reflexivity|].
  split; [reflexivity|].
  split; [right; reflexivity|].
  apply (out_of_input_fills_chain true (stdin_of "")).
  - apply at_loop_entry. reflexivity.
  - reflexivity.
  - right. reflexivity.
Defined.

(** A user who answers yes instead of y. *)
Definition yes_input : string :=
  "a" +:+ nl +:+ "yes" +:+ nl +:+ "n" +:+ nl.

Lemma answer_rest_is_next_data_witness :
  ∃ st,
    main_init true (stdin_of yes_input) = Some st ∧
    loop_cond st = true ∧ blockCount st + 1 < MAX_BLOCKS ∧
    one_line "a" = true ∧ one_line "s" = true ∧
    ∃ st1 st2,
      loop_body true st = Some st1 ∧ loop_cond st1 = true ∧
      body_append true st1 = Some st2 ∧
      data <$> chain st2 = (data <$> chain st) ++ ["a"; "s"] ∧
      cin st2 = stdin_of ("n" +:+ nl).
Proof.
  eexists.
  split; [vm_compute; reflexivity|].
  split; [reflexivity|]. split; [reflexivity|].
  split; [reflexivity|]. split; [reflexivity|].
  apply (answer_rest_is_next_data true (stdin_of yes_input) _ "a" "e" "s"
           ("n" +:+ nl)).
  - apply at_loop_entry. reflexivity.
  - reflexivity.
  - reflexivity.
  - reflexivity.
  - reflexivity.
  - reflexivity.
Defined.
